(** * Playback engine of the algorithm visualizer

    A shallow embedding of the playback engine of
    [src/algorithm-visualizer.jsx]: the trace types, the pure reducer
    [playbackReducer], the speed cell of [usePlaybackEngine] with its
    speed-to-delay conversion, and the context hook [usePlayback].

    Conventions of the embedding.
    - A step index is a JavaScript number that only ever holds small
      integers; it is a [Z].
    - [null] (an absent trace, an absent context value) is [None].
    - A playback speed is a finite JavaScript number.  [Math.max] and
      [Math.min] only compare and select, and the clamp bounds are the
      literals [0.1] and [5]; speeds are exact rationals ([Q]).  [NaN]
      and the infinities are outside the model.
    - A division of two numbers yields a double: the exact quotient
      rounded to the nearest number with a 53-bit significand, a tie
      going to the even one ([double_div]).  Quotients too large for a
      double are outside the model.
    - A [throw] is the [Throw] result of the [Completion] type.
    - The interval effect of [usePlaybackEngine] acts on a timer table
      of scheduled intervals.  Its dependency list is
      [[state.isPlaying]]: a render in which [isPlaying] changed runs
      the cleanup and then the effect, any other render runs neither.
      The calls made in one tick of the event loop are batched into
      one render.
    - Of the components, what is embedded is what they compute from the
      engine: the progress percentage (an exact rational), the step
      counter, the step cards with their [isCurrent] flags and their
      click handler.  Markup and styling are not. *)

From Stdlib Require Import ZArith List String Bool Lia.
From Stdlib Require Import QArith Qround Qminmax Qpower Lqa.
Import ListNotations.

Open Scope Z_scope.

(* ================================================================= *)
(** ** Section 1: types *)

(** The discriminated union of step kinds. *)
Inductive AlgorithmStepType : Type :=
  | visit | compare | swap | frontier | path | pivot | custom.

(** The payload values the traces of this file carry: numbers, strings
    and arrays of numbers. *)
Inductive PayloadValue : Type :=
  | PNum (n : Z)
  | PStr (s : string)
  | PNums (ns : list Z).

Record AlgorithmStep : Type := {
  id : Z;
  type : AlgorithmStepType;
  payload : list (string * PayloadValue)
}.

Record ExecutionMetadata : Type := {
  timeComplexity : string;
  spaceComplexity : string;
  notes : option string
}.

Record ExecutionTrace : Type := {
  steps : list AlgorithmStep;
  metadata : ExecutionMetadata
}.

(* ================================================================= *)
(** ** Section 2: the mock trace *)

Definition mkStep (i : Z) (k : AlgorithmStepType)
    (p : list (string * PayloadValue)) : AlgorithmStep :=
  {| id := i; type := k; payload := p |}.

Definition MOCK_TRACE : ExecutionTrace := {|
  steps := [
    mkStep 0 visit    [("node", PNum 1); ("label", PStr "Start node")];
    mkStep 1 compare  [("a", PNum 1); ("b", PNum 2); ("label", PStr "Compare neighbors")];
    mkStep 2 visit    [("node", PNum 2); ("label", PStr "Move to node 2")];
    mkStep 3 frontier [("nodes", PNums [3; 4]); ("label", PStr "Add to frontier")];
    mkStep 4 compare  [("a", PNum 2); ("b", PNum 3); ("label", PStr "Evaluate cost")];
    mkStep 5 visit    [("node", PNum 3); ("label", PStr "Visit node 3")];
    mkStep 6 pivot    [("node", PNum 3); ("label", PStr "Set as pivot")];
    mkStep 7 swap     [("i", PNum 0); ("j", PNum 3); ("label", PStr "Swap elements")];
    mkStep 8 visit    [("node", PNum 4); ("label", PStr "Visit node 4")];
    mkStep 9 path     [("nodes", PNums [1; 2; 3; 4]); ("label", PStr "Final path found")]
  ]%string;
  metadata := {|
    timeComplexity := "O(V + E)";
    spaceComplexity := "O(V)";
    notes := Some "Mock BFS-style trace for engine validation. No real algorithm runs here."%string
  |}
|}.

(* ================================================================= *)
(** ** Section 3: the playback engine *)

(** The actions of the state machine.  [JUMP] and [SET_TRACE] carry a
    payload.  [UNKNOWN] stands for an action whose [type] is none of
    the [PlaybackActions]; the reducer's [default] branch takes it. *)
Inductive PlaybackAction : Type :=
  | PLAY
  | PAUSE
  | STEP_FWD
  | STEP_BACK
  | RESET
  | JUMP (i : Z)
  | TICK
  | SET_TRACE (t : option ExecutionTrace)
  | UNKNOWN (name : string).

Record PlaybackState : Type := {
  trace : option ExecutionTrace;
  currentStepIndex : Z;
  isPlaying : bool
}.

Definition initialPlaybackState : PlaybackState := {|
  trace := None;
  currentStepIndex := 0;
  isPlaying := false
|}.

(** [state.trace ? state.trace.steps.length : 0] *)
Definition totalSteps (state : PlaybackState) : Z :=
  match trace state with
  | Some t => Z.of_nat (List.length (steps t))
  | None => 0
  end.

(** The pure reducer, branch by branch.  A spread [{ ...state, f: v }]
    is the record with [f] replaced. *)
Definition playbackReducer (state : PlaybackState) (action : PlaybackAction)
    : PlaybackState :=
  match action with
  | SET_TRACE t =>
      {| trace := t;
         currentStepIndex := currentStepIndex initialPlaybackState;
         isPlaying := isPlaying initialPlaybackState |}
  | PLAY =>
      match trace state with
      | None => state
      | Some _ =>
          if currentStepIndex state >=? totalSteps state - 1 then state
          else {| trace := trace state;
                  currentStepIndex := currentStepIndex state;
                  isPlaying := true |}
      end
  | PAUSE =>
      {| trace := trace state;
         currentStepIndex := currentStepIndex state;
         isPlaying := false |}
  | TICK
  | STEP_FWD =>
      let next := currentStepIndex state + 1 in
      if next >=? totalSteps state then
        {| trace := trace state;
           currentStepIndex := currentStepIndex state;
           isPlaying := false |}
      else
        {| trace := trace state;
           currentStepIndex := next;
           isPlaying := isPlaying state |}
  | STEP_BACK =>
      let prev := Z.max 0 (currentStepIndex state - 1) in
      {| trace := trace state; currentStepIndex := prev; isPlaying := false |}
  | RESET =>
      {| trace := trace state; currentStepIndex := 0; isPlaying := false |}
  | JUMP i =>
      let idx := Z.max 0 (Z.min (totalSteps state - 1) i) in
      {| trace := trace state; currentStepIndex := idx; isPlaying := false |}
  | UNKNOWN _ => state
  end.

(** The state [useReducer] starts from in [usePlaybackEngine]:
    [{ ...initialPlaybackState, trace: initialTrace }]. *)
Definition initialState (initialTrace : option ExecutionTrace) : PlaybackState :=
  {| trace := initialTrace;
     currentStepIndex := currentStepIndex initialPlaybackState;
     isPlaying := isPlaying initialPlaybackState |}.

(** Actions are applied in the order they are dispatched. *)
Definition run (state : PlaybackState) (actions : list PlaybackAction)
    : PlaybackState :=
  fold_left playbackReducer actions state.

(** The states the engine can be in: the initial one and whatever the
    reducer makes of a reachable one. *)
Inductive reachable (initialTrace : option ExecutionTrace)
    : PlaybackState -> Prop :=
  | reachable_init : reachable initialTrace (initialState initialTrace)
  | reachable_step (s : PlaybackState) (a : PlaybackAction) :
      reachable initialTrace s -> reachable initialTrace (playbackReducer s a).

(** The hook instance: the reducer state together with the two refs.
    Only [speedRef] matters here; the interval handle is the timer's. *)
Record PlaybackEngine : Type := {
  state : PlaybackState;
  speedRef : Q
}.

Definition usePlaybackEngine (initialTrace : option ExecutionTrace)
    : PlaybackEngine :=
  {| state := initialState initialTrace; speedRef := 1%Q |}.

(** [dispatch] replaces the reducer state and touches nothing else. *)
Definition dispatch (engine : PlaybackEngine) (action : PlaybackAction)
    : PlaybackEngine :=
  {| state := playbackReducer (state engine) action;
     speedRef := speedRef engine |}.

(** The public API. *)
Definition play (engine : PlaybackEngine) := dispatch engine PLAY.
Definition pause (engine : PlaybackEngine) := dispatch engine PAUSE.
Definition stepFwd (engine : PlaybackEngine) := dispatch engine STEP_FWD.
Definition stepBack (engine : PlaybackEngine) := dispatch engine STEP_BACK.
Definition reset (engine : PlaybackEngine) := dispatch engine RESET.
Definition jumpTo (i : Z) (engine : PlaybackEngine) := dispatch engine (JUMP i).
Definition setTrace (t : option ExecutionTrace) (engine : PlaybackEngine) :=
  dispatch engine (SET_TRACE t).

(** The callback handed to [setInterval]. *)
Definition intervalCallback (engine : PlaybackEngine) := dispatch engine TICK.

(** [speedRef.current = Math.max(0.1, Math.min(5, spd))] *)
Definition setSpeed (spd : Q) (engine : PlaybackEngine) : PlaybackEngine :=
  {| state := state engine;
     speedRef := Qmax (1 # 10) (Qmin 5 spd) |}.

(** [Math.round]: the nearest integer, a tie going up. *)
Definition Math_round (x : Q) : Z := Qfloor (x + (1 # 2)).

(** The binade of a positive number: the [e] with [2^e <= q < 2^(e+1)]. *)
Definition binade (q : Q) : Z :=
  let g := Z.log2 (Qnum q) - Z.log2 (Z.pos (Qden q)) in
  if Qle_bool (2 ^ g) q then g else g - 1.

(** The nearest integer, a tie going to the even one. *)
Definition round_half_even (x : Q) : Z :=
  let f := Qfloor x in
  match Qcompare (x - inject_Z f) (1 # 2) with
  | Lt => f
  | Gt => f + 1
  | Eq => if Z.even f then f else f + 1
  end.

(** The exponent a double gives to [q]: its binade, or -1022 for the
    subnormal numbers below. *)
Definition double_exponent (q : Q) : Z := Z.max (binade q) (-1022).

(** A positive number rounded to a double: 53 significant bits. *)
Definition to_double_pos (q : Q) : Q :=
  let e := double_exponent q in
  (inject_Z (round_half_even (q * 2 ^ (52 - e))) * 2 ^ (e - 52))%Q.

Definition to_double (q : Q) : Q :=
  match Qcompare q 0 with
  | Eq => 0%Q
  | Gt => to_double_pos q
  | Lt => (- to_double_pos (- q))%Q
  end.

(** [a / b] on numbers: the exact quotient, rounded once. *)
Definition double_div (a b : Q) : Q := to_double (a / b).

(** [(spd) => Math.round(1000 / spd)] *)
Definition speedToDelay (spd : Q) : Z := Math_round (double_div 1000 spd).

(** The numbers the literals [0.1] and [3.2] denote, and the double
    next to 1.86046511627907. *)
Definition double_0_1 : Q := 3602879701896397 # 36028797018963968.
Definition double_3_2 : Q := 3602879701896397 # 1125899906842624.
Definition double_1_86 : Q := 4189395002205113 # 2251799813685248.

(* ================================================================= *)
(** ** Section 4: the context *)

Inductive Completion (A : Type) : Type :=
  | Return (a : A)
  | Throw (message : string).
Arguments Return {A} a.
Arguments Throw {A} message.

(** [useContext(PlaybackContext)]: the value of the nearest enclosing
    provider, innermost first, or the default [null] of
    [createContext(null)] when there is none. *)
Definition useContext (providers : list PlaybackEngine) : option PlaybackEngine :=
  match providers with
  | [] => None
  | engine :: _ => Some engine
  end.

Definition usePlayback (providers : list PlaybackEngine)
    : Completion PlaybackEngine :=
  match useContext providers with
  | None => Throw "usePlayback must be used within PlaybackProvider"
  | Some ctx => Return ctx
  end.

(* ================================================================= *)
(** ** The properties of the specification, as predicates *)

(** The bounds invariant of the data model. *)
Definition in_bounds (s : PlaybackState) : Prop :=
  match trace s with
  | Some t =>
      0 <= currentStepIndex s
      <= Z.max 0 (Z.of_nat (List.length (steps t)) - 1)
  | None => currentStepIndex s = 0
  end.

(** [clamp(x, lo, hi)] as the specification words it: a value below
    the range goes to [lo], one above it to [hi]. *)
Definition spec_clamp (x lo hi : Z) : Z :=
  if x <? lo then lo else if hi <? x then hi else x.

(** The position [JumpTo(i)] is specified to reach. *)
Definition spec_jump_position (s : PlaybackState) (i : Z) : Z :=
  match trace s with
  | None => 0
  | Some t =>
      match steps t with
      | [] => 0
      | _ :: _ => spec_clamp i 0 (Z.of_nat (List.length (steps t)) - 1)
      end
  end.

(** The same clamp on rates. *)
Definition spec_clamp_rate (x lo hi : Q) : Q :=
  if Qlt_le_dec x lo then lo else if Qlt_le_dec hi x then hi else x.

(** [round]: the integer nearest to [q], the upper one at a tie. *)
Definition spec_round (q : Q) : Z :=
  let f := Qfloor q in
  if Qle_bool (1 # 2) (q - inject_Z f) then f + 1 else f.




(** When [Play] is specified to do nothing. *)
Definition play_is_noop (s : PlaybackState) : Prop :=
  trace s = None \/ totalSteps s = 0 \/ currentStepIndex s = totalSteps s - 1.

Definition nine_ticks : list PlaybackAction :=
  [TICK; TICK; TICK; TICK; TICK; TICK; TICK; TICK; TICK].

(* ================================================================= *)
(** ** The rest of the engine and its consumers *)

(** *** The derived fields of [usePlaybackEngine]

    [totalSteps] above is also the facade's
    [state.trace?.steps.length ?? 0]. *)

(** [state.trace?.steps[state.currentStepIndex] ?? null]: an index that
    is negative or past the end reads [undefined]. *)
Definition currentStep (s : PlaybackState) : option AlgorithmStep :=
  match trace s with
  | None => None
  | Some t =>
      if currentStepIndex s <? 0 then None
      else nth_error (steps t) (Z.to_nat (currentStepIndex s))
  end.

(** [state.currentStepIndex >= totalSteps - 1] *)
Definition isAtEnd (s : PlaybackState) : bool :=
  currentStepIndex s >=? totalSteps s - 1.

(** [state.currentStepIndex === 0] *)
Definition isAtStart (s : PlaybackState) : bool :=
  currentStepIndex s =? 0.

(** *** The calls a consumer can make on the hook *)

Inductive EngineCall : Type :=
  | Dispatch (a : PlaybackAction)
  | SetSpeed (spd : Q).

Definition call (engine : PlaybackEngine) (c : EngineCall) : PlaybackEngine :=
  match c with
  | Dispatch a => dispatch engine a
  | SetSpeed spd => setSpeed spd engine
  end.

Definition runEngine (engine : PlaybackEngine) (calls : list EngineCall)
    : PlaybackEngine :=
  fold_left call calls engine.

(** The actions among the calls, in order. *)
Fixpoint dispatched (calls : list EngineCall) : list PlaybackAction :=
  match calls with
  | [] => []
  | Dispatch a :: rest => a :: dispatched rest
  | SetSpeed _ :: rest => dispatched rest
  end.

(** *** The interval effect

    The timer table holds the intervals that are scheduled, each with
    its handle and its delay in milliseconds. *)
Record Timers : Type := {
  scheduled : list (nat * Z);
  nextHandle : nat
}.

Definition setInterval (delay : Z) (tm : Timers) : nat * Timers :=
  (nextHandle tm,
   {| scheduled := (nextHandle tm, delay) :: scheduled tm;
      nextHandle := S (nextHandle tm) |}).

(** Clearing [null] or a handle that is not scheduled does nothing. *)
Definition clearInterval (h : option nat) (tm : Timers) : Timers :=
  match h with
  | None => tm
  | Some n =>
      {| scheduled := filter (fun e => negb (Nat.eqb (fst e) n)) (scheduled tm);
         nextHandle := nextHandle tm |}
  end.

Record TimerDriver : Type := {
  intervalRef : option nat;
  timers : Timers
}.

(** The body of the effect. *)
Definition intervalEffect (engine : PlaybackEngine) (d : TimerDriver)
    : TimerDriver :=
  if isPlaying (state engine) then
    let (h, tm) := setInterval (speedToDelay (speedRef engine)) (timers d) in
    {| intervalRef := Some h; timers := tm |}
  else
    {| intervalRef := intervalRef d;
       timers := clearInterval (intervalRef d) (timers d) |}.

(** The function the effect returns. *)
Definition intervalCleanup (d : TimerDriver) : TimerDriver :=
  {| intervalRef := intervalRef d;
     timers := clearInterval (intervalRef d) (timers d) |}.

(** The effect runs on mount. *)
Definition mountDriver (engine : PlaybackEngine) : TimerDriver :=
  intervalEffect engine
    {| intervalRef := None;
       timers := {| scheduled := []; nextHandle := 0 |} |}.

(** With the dependency list [[state.isPlaying]], a render whose
    [isPlaying] differs from the previous one runs the cleanup and then
    the effect; any other render leaves the timers alone. *)
Definition commitRender (prev next : PlaybackEngine) (d : TimerDriver)
    : TimerDriver :=
  if Bool.eqb (isPlaying (state prev)) (isPlaying (state next)) then d
  else intervalEffect next (intervalCleanup d).

Definition unmountDriver (d : TimerDriver) : TimerDriver := intervalCleanup d.

(** The hook as a whole: its engine and its timers. *)
Definition mountHook (initialTrace : option ExecutionTrace)
    : PlaybackEngine * TimerDriver :=
  (usePlaybackEngine initialTrace, mountDriver (usePlaybackEngine initialTrace)).

(** One tick of the event loop.  The calls made in it are applied in
    order and rendered once: the effect sees the engine as it was at
    the previous render and as it is after the whole batch. *)
Definition commitBatch (h : PlaybackEngine * TimerDriver)
    (batch : list EngineCall) : PlaybackEngine * TimerDriver :=
  (runEngine (fst h) batch,
   commitRender (fst h) (runEngine (fst h) batch) (snd h)).

(** The ticks one after the other. *)
Definition runHook (h : PlaybackEngine * TimerDriver)
    (batches : list (list EngineCall)) : PlaybackEngine * TimerDriver :=
  fold_left commitBatch batches h.

(** *** The components that read the engine *)

(** [ProgressBar]:
    [totalSteps > 1 ? (currentStepIndex / (totalSteps - 1)) * 100 : 0] *)
Definition progressPct (s : PlaybackState) : Q :=
  if totalSteps s >? 1 then
    (inject_Z (currentStepIndex s) / inject_Z (totalSteps s - 1) * 100)%Q
  else 0%Q.

(** The counter [{currentStepIndex + 1} / {totalSteps}]. *)
Definition stepCounter (s : PlaybackState) : Z * Z :=
  (currentStepIndex s + 1, totalSteps s).

(** The props [VisualizerPanel] hands to each [StepCard]. *)
Record StepCardProps : Type := {
  step : AlgorithmStep;
  isCurrent : bool;
  index : Z
}.

(** [steps.map((step, i) => ...)] from index [i] on. *)
Fixpoint stepCardsFrom (i : Z) (l : list AlgorithmStep) (current : Z)
    : list StepCardProps :=
  match l with
  | [] => []
  | st :: rest =>
      {| step := st; isCurrent := i =? current; index := i |}
      :: stepCardsFrom (i + 1) rest current
  end.

(** [trace?.steps.map(...)]: no cards without a trace. *)
Definition stepCards (s : PlaybackState) : list StepCardProps :=
  match trace s with
  | None => []
  | Some t => stepCardsFrom 0 (steps t) (currentStepIndex s)
  end.

(** The card's [onClick={() => onClick(index)}] with [onClick={jumpTo}]. *)
Definition clickCard (c : StepCardProps) (engine : PlaybackEngine)
    : PlaybackEngine :=
  jumpTo (index c) engine.

(** *** Invariants of the hook *)

(** The speed cell holds a speed of the slider's range. *)
Definition speed_in_range (engine : PlaybackEngine) : Prop :=
  (1 # 10 <= speedRef engine <= 5)%Q.

(** The timers mirror [isPlaying]: while playing, the one interval
    that is scheduled is the one [intervalRef] names; otherwise none
    is. *)
Definition driver_matches (h : PlaybackEngine * TimerDriver) : Prop :=
  if isPlaying (state (fst h)) then
    exists n delay,
      intervalRef (snd h) = Some n
      /\ scheduled (timers (snd h)) = [(n, delay)]
      /\ 200 <= delay <= 10000
  else scheduled (timers (snd h)) = [].

(** Decide the comparison the branch at hand tests. *)
Ltac case_geb :=
  match goal with
  | |- context [?a >=? ?b] => destruct (Z.geb_spec a b)
  end.

(* ================================================================= *)
(** ** Sanity checks on the mock trace *)

Example mock_play_three_ticks :
  run (initialState (Some MOCK_TRACE)) [PLAY; TICK; TICK; TICK]
  = {| trace := Some MOCK_TRACE; currentStepIndex := 3; isPlaying := true |}.
Proof. reflexivity. Qed.

Example mock_step_back_from_end :
  currentStepIndex (run (initialState (Some MOCK_TRACE)) [JUMP 50; STEP_BACK]) = 8.
Proof. reflexivity. Qed.

Example delay_at_default_speed : speedToDelay 1 = 1000.
Proof. reflexivity. Qed.

(** The quotient is rounded to a double before [Math.round] sees it:
    at these speeds it lands on a half and goes up, where the exact
    quotient lies just below the half. *)
Example delay_at_3_2 :
  speedToDelay double_3_2 = 313 /\ spec_round (1000 / double_3_2) = 312.
Proof. split; reflexivity. Qed.

Example delay_at_1_86 :
  speedToDelay double_1_86 = 538 /\ spec_round (1000 / double_1_86) = 537.
Proof. split; reflexivity. Qed.

Example to_double_of_a_tenth : (to_double (1 # 10) == double_0_1)%Q.
Proof. reflexivity. Qed.

(** Rounding merges neighbouring rates: the delays decrease weakly. *)
Example delay_plateau_below_five : speedToDelay (499 # 100) = speedToDelay 5.
Proof. reflexivity. Qed.

Example jump_scrubs_into_range :
  currentStepIndex (run (initialState (Some MOCK_TRACE)) [JUMP (-5)]) = 0
  /\ currentStepIndex (run (initialState (Some MOCK_TRACE)) [JUMP 50]) = 9
  /\ currentStepIndex (run (initialState None) [JUMP 50]) = 0.
Proof. repeat split. Qed.

(* ================================================================= *)
(** ** The reducer, command by command *)

Section Reducer.

Variable s : PlaybackState.

(** C4: whatever the prior state, [SET_TRACE t] yields the state with
    trace [t], position 0 and [isPlaying] false. *)
Theorem set_trace_resets (t : option ExecutionTrace) :
  playbackReducer s (SET_TRACE t)
  = {| trace := t; currentStepIndex := 0; isPlaying := false |}.
Proof. reflexivity. Qed.

(** C10: on every state the reducer sends the timer's [TICK] and the
    user's [STEP_FWD] to the same result. *)
Theorem tick_is_step_fwd :
  playbackReducer s TICK = playbackReducer s STEP_FWD.
Proof. reflexivity. Qed.

Lemma totalSteps_nonneg : 0 <= totalSteps s.
Proof. unfold totalSteps. destruct (trace s); lia. Qed.

Lemma spec_jump_position_clamp (i : Z) :
  spec_jump_position s i = Z.max 0 (Z.min (totalSteps s - 1) i).
Proof.
  unfold spec_jump_position, totalSteps, spec_clamp.
  destruct (trace s) as [t|]; [|lia].
  destruct (steps t) as [|x l]; cbn [List.length]; [lia|].
  destruct (Z.ltb_spec i 0); [lia|].
  destruct (Z.ltb_spec (Z.of_nat (S (List.length l)) - 1) i); lia.
Qed.

(** C6: for every state and every integer [i], [JUMP i] puts the
    position at [i] clamped into [0 .. len(steps) - 1], at 0 when the
    trace is empty or absent, and sets [isPlaying] to false; the
    reducer is total, so nothing is thrown. *)
Theorem jump_clamps (i : Z) :
  playbackReducer s (JUMP i)
  = {| trace := trace s;
       currentStepIndex := spec_jump_position s i;
       isPlaying := false |}.
Proof.
  rewrite spec_jump_position_clamp. reflexivity.
Qed.

End Reducer.

Lemma intervalCallback_is_stepFwd (engine : PlaybackEngine) :
  intervalCallback engine = stepFwd engine.
Proof. reflexivity. Qed.

(* ================================================================= *)
(** ** Invariants of the reachable states *)

Lemma in_bounds_total (s : PlaybackState) :
  in_bounds s <->
  (0 <= currentStepIndex s <= Z.max 0 (totalSteps s - 1)).
Proof.
  unfold in_bounds, totalSteps. destruct (trace s); lia.
Qed.

Lemma initialState_in_bounds (T : option ExecutionTrace) :
  in_bounds (initialState T).
Proof.
  unfold in_bounds, initialState; cbn. destruct T; lia.
Qed.

Lemma playbackReducer_in_bounds (s : PlaybackState) (a : PlaybackAction) :
  in_bounds s -> in_bounds (playbackReducer s a).
Proof.
  destruct s as [[t|] i p];
    unfold in_bounds, playbackReducer, totalSteps;
    cbn [trace currentStepIndex isPlaying initialPlaybackState];
    intros Hs;
    destruct a as [ | | | | | j | | [t'|] | name ];
    try exact Hs;
    try case_geb;
    cbn [trace currentStepIndex isPlaying]; lia.
Qed.

Lemma reachable_run (T : option ExecutionTrace) (actions : list PlaybackAction) :
  reachable T (run (initialState T) actions).
Proof.
  unfold run. induction actions as [|a actions IH] using rev_ind.
  - apply reachable_init.
  - rewrite fold_left_app. cbn. apply reachable_step. exact IH.
Qed.

Lemma reachable_in_bounds (T : option ExecutionTrace) (s : PlaybackState) :
  reachable T s -> in_bounds s.
Proof.
  induction 1 as [|s a _ IH].
  - apply initialState_in_bounds.
  - apply playbackReducer_in_bounds. exact IH.
Qed.

(** C3: for every initial trace and every sequence of commands, the
    position lies in [0 .. max(0, len(steps) - 1)] of the trace that is
    loaded, and is 0 when none is. *)
Theorem position_in_bounds (T : option ExecutionTrace)
    (actions : list PlaybackAction) :
  in_bounds (run (initialState T) actions).
Proof.
  apply (reachable_in_bounds T). apply reachable_run.
Qed.







(* ================================================================= *)
(** ** Play, and the ten-step scenario *)

(** C5: on a state within bounds, [PLAY] returns the state itself when
    the trace is absent, has no steps, or the position is the final
    step; in every other case it returns the state with [isPlaying]
    true and the trace and position as they were.  It is a value in
    both cases: the reducer throws nothing. *)
Theorem play_noop_or_start (s : PlaybackState) :
  in_bounds s ->
  (play_is_noop s /\ playbackReducer s PLAY = s)
  \/ (~ play_is_noop s
      /\ playbackReducer s PLAY
         = {| trace := trace s;
              currentStepIndex := currentStepIndex s;
              isPlaying := true |}).
Proof.
  intros Hb. apply in_bounds_total in Hb.
  pose proof (totalSteps_nonneg s) as Hn.
  unfold play_is_noop. cbn [playbackReducer].
  destruct (trace s) as [t|] eqn:Ht.
  - case_geb.
    + left. split; [|reflexivity]. lia.
    + right. split; [|reflexivity].
      intros [Hx | [Hx | Hx]]; [discriminate | lia | lia].
  - left. split; [|reflexivity]. left. reflexivity.
Qed.

Lemma play_noop_or_start_witness :
  in_bounds (initialState (Some MOCK_TRACE))
  /\ ((play_is_noop (initialState (Some MOCK_TRACE))
       /\ playbackReducer (initialState (Some MOCK_TRACE)) PLAY
          = initialState (Some MOCK_TRACE))
      \/ (~ play_is_noop (initialState (Some MOCK_TRACE))
          /\ playbackReducer (initialState (Some MOCK_TRACE)) PLAY
             = {| trace := Some MOCK_TRACE;
                  currentStepIndex := 0;
                  isPlaying := true |})).
Proof.
  assert (Hb : in_bounds (initialState (Some MOCK_TRACE))) by (cbn; lia).
  split.
  - exact Hb.
  - apply (play_noop_or_start (initialState (Some MOCK_TRACE)) Hb).
Defined.

Lemma tick_on_trace (t : ExecutionTrace) (i : Z) (p : bool) :
  playbackReducer {| trace := Some t; currentStepIndex := i; isPlaying := p |} TICK
  = if i + 1 >=? Z.of_nat (List.length (steps t))
    then {| trace := Some t; currentStepIndex := i; isPlaying := false |}
    else {| trace := Some t; currentStepIndex := i + 1; isPlaying := p |}.
Proof. reflexivity. Qed.

(** One [TICK] on a trace whose length [Hlen] gives as a numeral. *)
Ltac tick_once Hlen :=
  rewrite tick_on_trace, Hlen;
  simpl (Z.of_nat _); simpl (_ + _);
  match goal with
  | |- context [?a >=? ?b] =>
      let v := eval compute in (a >=? b) in change (a >=? b) with v
  end;
  cbv iota.

(** C2, as the code has it: on any ten-step trace, from position 0 and
    paused, [PLAY] sets [isPlaying]; nine [TICK]s then reach position 9
    with [isPlaying] still true; the tenth [TICK] keeps position 9 and
    clears [isPlaying]; an eleventh changes nothing. *)
Theorem ten_step_scenario (t : ExecutionTrace) :
  List.length (steps t) = 10%nat ->
  let s0 := {| trace := Some t; currentStepIndex := 0; isPlaying := false |} in
  let s9 := run (playbackReducer s0 PLAY) nine_ticks in
  playbackReducer s0 PLAY
  = {| trace := Some t; currentStepIndex := 0; isPlaying := true |}
  /\ s9 = {| trace := Some t; currentStepIndex := 9; isPlaying := true |}
  /\ playbackReducer s9 TICK
     = {| trace := Some t; currentStepIndex := 9; isPlaying := false |}
  /\ playbackReducer (playbackReducer s9 TICK) TICK = playbackReducer s9 TICK.
Proof.
  intros Hlen s0 s9.
  assert (Hplay : playbackReducer s0 PLAY
                  = {| trace := Some t; currentStepIndex := 0; isPlaying := true |}).
  { unfold s0, playbackReducer, totalSteps; cbn [trace currentStepIndex].
    rewrite Hlen. reflexivity. }
  assert (H9 : s9 = {| trace := Some t; currentStepIndex := 9; isPlaying := true |}).
  { unfold s9, run, nine_ticks. rewrite Hplay. cbn [fold_left].
    do 9 tick_once Hlen. reflexivity. }
  rewrite !H9.
  split; [exact Hplay|]. split; [reflexivity|].
  tick_once Hlen. split; [reflexivity|].
  tick_once Hlen. reflexivity.
Qed.

Lemma ten_step_scenario_witness :
  List.length (steps MOCK_TRACE) = 10%nat
  /\ (playbackReducer (initialState (Some MOCK_TRACE)) PLAY
      = {| trace := Some MOCK_TRACE; currentStepIndex := 0; isPlaying := true |}
      /\ run (playbackReducer (initialState (Some MOCK_TRACE)) PLAY) nine_ticks
         = {| trace := Some MOCK_TRACE; currentStepIndex := 9; isPlaying := true |}
      /\ playbackReducer
           (run (playbackReducer (initialState (Some MOCK_TRACE)) PLAY) nine_ticks) TICK
         = {| trace := Some MOCK_TRACE; currentStepIndex := 9; isPlaying := false |}
      /\ playbackReducer
           (playbackReducer
              (run (playbackReducer (initialState (Some MOCK_TRACE)) PLAY) nine_ticks)
              TICK) TICK
         = playbackReducer
             (run (playbackReducer (initialState (Some MOCK_TRACE)) PLAY) nine_ticks)
             TICK).
Proof.
  split.
  - reflexivity.
  - apply (ten_step_scenario MOCK_TRACE). reflexivity.
Defined.

(** C2 as stated fails on the mock trace: after [PLAY] and nine
    [TICK]s the state is not the paused one at position 9 that a tenth
    [TICK] would leave alone. *)
Lemma ten_step_scenario_as_stated_fails :
  ~ (let s0 := {| trace := Some MOCK_TRACE;
                  currentStepIndex := 0; isPlaying := false |} in
     let s9 := run (playbackReducer s0 PLAY) nine_ticks in
     isPlaying (playbackReducer s0 PLAY) = true
     /\ currentStepIndex s9 = 9
     /\ isPlaying s9 = false
     /\ playbackReducer s9 TICK = s9).
Proof.
  cbv zeta. intros (_ & _ & Hp & _). discriminate Hp.
Qed.

(* ================================================================= *)
(** ** The speed cell *)

Section Speed.

Local Open Scope Q_scope.

Lemma spec_clamp_rate_minmax (x lo hi : Q) :
  lo <= hi -> Qmax lo (Qmin hi x) == spec_clamp_rate x lo hi.
Proof.
  intros Hlohi. unfold spec_clamp_rate.
  destruct (Qlt_le_dec x lo) as [Hlt | Hge].
  - apply Q.max_l. apply Qle_trans with x.
    + apply Q.le_min_r.
    + apply Qlt_le_weak. exact Hlt.
  - destruct (Qlt_le_dec hi x) as [Hgt | Hle].
    + rewrite (Q.min_l hi x) by (apply Qlt_le_weak; exact Hgt).
      apply Q.max_r. exact Hlohi.
    + rewrite (Q.min_r hi x) by exact Hle.
      apply Q.max_r. exact Hge.
Qed.

(** C7: for every rate [spd], [setSpeed] stores [spd] clamped to
    [0.1 .. 5] (a rate below the range becomes 0.1, one above it 5, one
    inside it is kept) and the reducer state of the engine, that is its
    trace, position and [isPlaying], is the one it was. *)
Theorem setSpeed_clamps_and_frames (spd : Q) (engine : PlaybackEngine) :
  speedRef (setSpeed spd engine) == spec_clamp_rate spd (1 # 10) 5
  /\ state (setSpeed spd engine) = state engine.
Proof.
  split.
  - cbn [setSpeed speedRef]. apply spec_clamp_rate_minmax. discriminate.
  - reflexivity.
Qed.



Lemma Qdiv_antitone (x y : Q) :
  0 < x -> x <= y -> 1000 / y <= 1000 / x.
Proof.
  intros Hx Hxy.
  assert (Hy : 0 < y) by (apply Qlt_le_trans with x; assumption).
  assert (Hq : 0 < 1000 / x).
  { apply Qlt_shift_div_l; [exact Hx | reflexivity]. }
  apply Qle_shift_div_r; [exact Hy|].
  apply Qle_trans with (1000 / x * x).
  - unfold Qdiv. rewrite <- Qmult_assoc, (Qmult_comm (/ x)), Qmult_inv_r.
    + rewrite Qmult_1_r. apply Qle_refl.
    + intros H0. rewrite H0 in Hx. discriminate.
  - apply Qmult_le_l; assumption.
Qed.

Lemma pow2_pos (k : Z) : 0 < 2 ^ k.
Proof. apply Qpower_0_lt. reflexivity. Qed.

Lemma pow2_add (a b : Z) : 2 ^ (a + b) == 2 ^ a * 2 ^ b.
Proof. apply Qpower_plus. discriminate. Qed.

Lemma pow2_le (a b : Z) : (a <= b)%Z -> 2 ^ a <= 2 ^ b.
Proof. intros H. apply Qpower_le_compat_l; [exact H | discriminate]. Qed.

Lemma pow2_lt_inv (a b : Z) : 2 ^ a < 2 ^ b -> (a < b)%Z.
Proof. intros H. apply (Qpower_lt_compat_l_inv 2); [exact H | reflexivity]. Qed.

Lemma pow2_inject (k : Z) : (0 <= k)%Z -> 2 ^ k == inject_Z (2 ^ k).
Proof. intros H. symmetry. apply (Zpower_Qpower 2 k H). Qed.

Lemma binade_spec (q : Q) :
  0 < q -> 2 ^ binade q <= q /\ q < 2 ^ (binade q + 1).
Proof.
  intros Hq. unfold binade.
  destruct q as [n d]. cbn [Qnum Qden].
  assert (Hn : (0 < n)%Z) by (unfold Qlt in Hq; cbn in Hq; lia).
  set (a := Z.log2 n). set (b := Z.log2 (Z.pos d)).
  destruct (Z.log2_spec n Hn) as [Ha1 Ha2]. fold a in Ha1, Ha2.
  destruct (Z.log2_spec (Z.pos d) (Pos2Z.is_pos d)) as [Hb1 Hb2]. fold b in Hb1, Hb2.
  assert (Ha0 : (0 <= a)%Z) by apply Z.log2_nonneg.
  assert (Hb0 : (0 <= b)%Z) by apply Z.log2_nonneg.
  assert (Hlow : 2 ^ (a - b - 1) <= n # d).
  { setoid_replace (2 ^ (a - b - 1)) with (2 ^ a / 2 ^ (b + 1)).
    - apply Qle_shift_div_r; [apply pow2_pos|].
      rewrite (pow2_inject a Ha0), (pow2_inject (b + 1)) by lia.
      unfold Qle, Qmult, inject_Z. cbn [Qnum Qden].
      rewrite Z.pow_succ_r in Hb2 by lia.
      rewrite Z.pow_add_r by lia. change (2 ^ 1)%Z with 2%Z.
      set (A := (2 ^ a)%Z) in *. set (B := (2 ^ b)%Z) in *. nia.
    - replace (a - b - 1)%Z with (a - (b + 1))%Z by lia.
      apply Qpower_minus. discriminate. }
  assert (Hup : n # d < 2 ^ (a - b + 1)).
  { setoid_replace (2 ^ (a - b + 1)) with (2 ^ (a + 1) / 2 ^ b).
    - apply Qlt_shift_div_l; [apply pow2_pos|].
      rewrite (pow2_inject b Hb0), (pow2_inject (a + 1)) by lia.
      unfold Qlt, Qmult, inject_Z. cbn [Qnum Qden].
      rewrite <- Z.add_1_r in Ha2.
      set (A := (2 ^ (a + 1))%Z) in *. set (B := (2 ^ b)%Z) in *. nia.
    - replace (a - b + 1)%Z with (a + 1 - b)%Z by lia.
      apply Qpower_minus. discriminate. }
  destruct (Qle_bool (2 ^ (a - b)) (n # d)) eqn:Hc.
  - apply Qle_bool_iff in Hc. split; assumption.
  - assert (Hlt : n # d < 2 ^ (a - b)).
    { apply Qnot_le_lt. intros H. apply Qle_bool_iff in H. congruence. }
    split; [exact Hlow|].
    replace (a - b - 1 + 1)%Z with (a - b)%Z by lia. exact Hlt.
Qed.


Lemma binade_mono (p q : Q) : 0 < p -> p <= q -> (binade p <= binade q)%Z.
Proof.
  intros Hp Hpq.
  assert (Hq : 0 < q) by (apply Qlt_le_trans with p; assumption).
  destruct (binade_spec p Hp) as [Hp1 _].
  destruct (binade_spec q Hq) as [_ Hq2].
  assert (H : 2 ^ binade p < 2 ^ (binade q + 1)).
  { apply Qle_lt_trans with p; [exact Hp1|].
    apply Qle_lt_trans with q; assumption. }
  apply pow2_lt_inv in H. lia.
Qed.

Lemma round_half_even_cases (x : Q) :
  (round_half_even x = Qfloor x /\ x - inject_Z (Qfloor x) <= 1 # 2)
  \/ (round_half_even x = (Qfloor x + 1)%Z /\ 1 # 2 <= x - inject_Z (Qfloor x)).
Proof.
  unfold round_half_even.
  destruct (Qcompare_spec (x - inject_Z (Qfloor x)) (1 # 2)) as [He | Hl | Hg].
  - destruct (Z.even (Qfloor x)); [left | right]; split;
      try reflexivity; rewrite He; apply Qle_refl.
  - left. split; [reflexivity | apply Qlt_le_weak; exact Hl].
  - right. split; [reflexivity | apply Qlt_le_weak; exact Hg].
Qed.


Lemma round_half_even_mono (x y : Q) :
  x <= y -> (round_half_even x <= round_half_even y)%Z.
Proof.
  intros Hxy. pose proof (Qfloor_resp_le x y Hxy) as Hf.
  destruct (Z.eq_dec (Qfloor x) (Qfloor y)) as [Heq | Hne].
  - unfold round_half_even. rewrite <- Heq.
    destruct (Qcompare_spec (x - inject_Z (Qfloor x)) (1 # 2)) as [He | Hl | Hg];
      destruct (Qcompare_spec (y - inject_Z (Qfloor x)) (1 # 2)) as [He' | Hl' | Hg'];
      try (destruct (Z.even (Qfloor x))); try lia; exfalso; lra.
  - destruct (round_half_even_cases x) as [[-> _] | [-> _]];
      destruct (round_half_even_cases y) as [[-> _] | [-> _]]; lia.
Qed.

Lemma round_half_even_Z (n : Z) : round_half_even (inject_Z n) = n.
Proof.
  unfold round_half_even. rewrite Qfloor_Z.
  destruct (Qcompare_spec (inject_Z n - inject_Z n) (1 # 2)) as [He | Hl | Hg];
    try reflexivity; exfalso; lra.
Qed.

Lemma double_exponent_spec (q : Q) :
  0 < q ->
  q < 2 ^ (double_exponent q + 1)
  /\ ((-1022 <= binade q)%Z -> 2 ^ double_exponent q <= q).
Proof.
  intros Hq. destruct (binade_spec q Hq) as [H1 H2]. unfold double_exponent. split.
  - apply Qlt_le_trans with (2 ^ (binade q + 1)); [exact H2|].
    apply pow2_le. lia.
  - intros Hn. rewrite Z.max_l by lia. exact H1.
Qed.

Lemma scale_back (z : Z) (e : Z) (m : Z) :
  (z <= m)%Z -> inject_Z z * 2 ^ e <= inject_Z m * 2 ^ e.
Proof.
  intros H. apply Qmult_le_compat_r.
  - rewrite <- Zle_Qle. exact H.
  - apply Qlt_le_weak. apply pow2_pos.
Qed.

Lemma to_double_pos_upper (q : Q) :
  0 < q -> to_double_pos q <= 2 ^ (double_exponent q + 1).
Proof.
  intros Hq. destruct (double_exponent_spec q Hq) as [Hup _].
  unfold to_double_pos. set (e := double_exponent q) in *.
  assert (Hr : (round_half_even (q * 2 ^ (52 - e)) <= 2 ^ 53)%Z).
  { rewrite <- (round_half_even_Z (2 ^ 53)). apply round_half_even_mono.
    rewrite <- (pow2_inject 53) by lia.
    setoid_replace (2 ^ 53) with (2 ^ (e + 1) * 2 ^ (52 - e)).
    - apply Qmult_le_compat_r; [apply Qlt_le_weak; exact Hup|].
      apply Qlt_le_weak. apply pow2_pos.
    - rewrite <- pow2_add. replace (e + 1 + (52 - e))%Z with 53%Z by lia.
      reflexivity. }
  apply Qle_trans with (inject_Z (2 ^ 53) * 2 ^ (e - 52)).
  - apply scale_back. exact Hr.
  - rewrite <- (pow2_inject 53) by lia. rewrite <- pow2_add.
    replace (53 + (e - 52))%Z with (e + 1)%Z by lia. apply Qle_refl.
Qed.

Lemma to_double_pos_lower (q : Q) :
  0 < q -> (-1022 <= binade q)%Z -> 2 ^ double_exponent q <= to_double_pos q.
Proof.
  intros Hq Hn. destruct (double_exponent_spec q Hq) as [_ Hlo].
  specialize (Hlo Hn).
  unfold to_double_pos. set (e := double_exponent q) in *.
  assert (Hr : (2 ^ 52 <= round_half_even (q * 2 ^ (52 - e)))%Z).
  { rewrite <- (round_half_even_Z (2 ^ 52)) at 1. apply round_half_even_mono.
    rewrite <- (pow2_inject 52) by lia.
    setoid_replace (2 ^ 52) with (2 ^ e * 2 ^ (52 - e)).
    - apply Qmult_le_compat_r; [exact Hlo|].
      apply Qlt_le_weak. apply pow2_pos.
    - rewrite <- pow2_add. replace (e + (52 - e))%Z with 52%Z by lia.
      reflexivity. }
  apply Qle_trans with (inject_Z (2 ^ 52) * 2 ^ (e - 52)).
  - rewrite <- (pow2_inject 52) by lia. rewrite <- pow2_add.
    replace (52 + (e - 52))%Z with e by lia. apply Qle_refl.
  - apply scale_back. exact Hr.
Qed.

Lemma to_double_pos_mono (p q : Q) :
  0 < p -> p <= q -> to_double_pos p <= to_double_pos q.
Proof.
  intros Hp Hpq.
  assert (Hq : 0 < q) by (apply Qlt_le_trans with p; assumption).
  pose proof (binade_mono p q Hp Hpq) as Hb.
  destruct (Z.eq_dec (double_exponent p) (double_exponent q)) as [Heq | Hne].
  - unfold to_double_pos. rewrite Heq. apply scale_back.
    apply round_half_even_mono. apply Qmult_le_compat_r; [exact Hpq|].
    apply Qlt_le_weak. apply pow2_pos.
  - assert (Hlt : (double_exponent p < double_exponent q)%Z)
      by (unfold double_exponent in *; lia).
    assert (Hn : (-1022 <= binade q)%Z) by (unfold double_exponent in *; lia).
    apply Qle_trans with (2 ^ (double_exponent p + 1)).
    + apply to_double_pos_upper. exact Hp.
    + apply Qle_trans with (2 ^ double_exponent q).
      * apply pow2_le. lia.
      * apply to_double_pos_lower; assumption.
Qed.


Lemma to_double_positive (q : Q) : 0 < q -> to_double q = to_double_pos q.
Proof.
  intros Hq. unfold to_double.
  assert (H : (q ?= 0) = Gt) by (apply Qgt_alt; exact Hq).
  rewrite H. reflexivity.
Qed.

Lemma quotient_positive (x : Q) : 0 < x -> 0 < 1000 / x.
Proof. intros Hx. apply Qlt_shift_div_l; [exact Hx | reflexivity]. Qed.

Lemma double_div_antitone (x y : Q) :
  0 < x -> x <= y -> double_div 1000 y <= double_div 1000 x.
Proof.
  intros Hx Hxy.
  assert (Hy : 0 < y) by (apply Qlt_le_trans with x; assumption).
  unfold double_div.
  rewrite !to_double_positive by (apply quotient_positive; assumption).
  apply to_double_pos_mono.
  - apply quotient_positive. exact Hy.
  - apply Qdiv_antitone; assumption.
Qed.

Lemma speedToDelay_antitone (x y : Q) :
  0 < x -> x <= y -> (speedToDelay y <= speedToDelay x)%Z.
Proof.
  intros Hx Hxy. unfold speedToDelay, Math_round.
  apply Qfloor_resp_le. apply Qplus_le_l. apply double_div_antitone; assumption.
Qed.





End Speed.

(* ================================================================= *)
(** ** The context hook *)

(** C9: with no [PlaybackProvider] above the caller the context value
    is [null] and [usePlayback] throws at once; it returns no engine,
    default or otherwise. *)
Theorem usePlayback_outside_provider :
  usePlayback []
  = Throw "usePlayback must be used within PlaybackProvider".
Proof. reflexivity. Qed.

Lemma usePlayback_inside_provider (engine : PlaybackEngine)
    (outer : list PlaybackEngine) :
  usePlayback (engine :: outer) = Return engine.
Proof. reflexivity. Qed.

(* ================================================================= *)
(** ** How the commands compose *)

(** X1: only [SET_TRACE] replaces the trace: every other action, known or
    not, hands the trace on as it received it. *)
Theorem trace_only_set_by_SET_TRACE (s : PlaybackState) (a : PlaybackAction) :
  (forall t, a <> SET_TRACE t) ->
  trace (playbackReducer s a) = trace s.
Proof.
  intros Ha. destruct s as [tr i p].
  destruct a as [ | | | | | j | | t | name ];
    cbn [playbackReducer trace currentStepIndex];
    try reflexivity.
  - destruct tr; [destruct (_ >=? _)|]; reflexivity.
  - destruct (_ >=? _); reflexivity.
  - destruct (_ >=? _); reflexivity.
  - destruct (Ha t). reflexivity.
Qed.

Lemma trace_only_set_by_SET_TRACE_witness :
  (forall t, JUMP 4 <> SET_TRACE t)
  /\ trace (playbackReducer (initialState (Some MOCK_TRACE)) (JUMP 4))
     = trace (initialState (Some MOCK_TRACE)).
Proof.
  assert (H : forall t, JUMP 4 <> SET_TRACE t) by (intros t; discriminate).
  split.
  - exact H.
  - apply (trace_only_set_by_SET_TRACE (initialState (Some MOCK_TRACE)) (JUMP 4) H).
Defined.

(** X2: playback starts in one way only: if a paused state becomes a
    playing one, the action was [PLAY]. *)
Theorem only_PLAY_starts_playback (s : PlaybackState) (a : PlaybackAction) :
  isPlaying s = false ->
  isPlaying (playbackReducer s a) = true ->
  a = PLAY.
Proof.
  intros Hp Hq.
  destruct a as [ | | | | | j | | t | name ]; try reflexivity;
    exfalso; revert Hq; cbn [playbackReducer];
    try case_geb; cbn [isPlaying initialPlaybackState]; congruence.
Qed.

Lemma only_PLAY_starts_playback_witness :
  isPlaying (initialState (Some MOCK_TRACE)) = false
  /\ isPlaying (playbackReducer (initialState (Some MOCK_TRACE)) PLAY) = true
  /\ PLAY = PLAY.
Proof.
  split; [reflexivity|]. split; [reflexivity|].
  apply (only_PLAY_starts_playback (initialState (Some MOCK_TRACE)) PLAY);
    reflexivity.
Defined.

(** X3: every action except the three that step is idempotent: issuing
    [PLAY], [PAUSE], [RESET], [JUMP i], [SET_TRACE t] or an unknown
    action twice gives what issuing it once gives. *)
Theorem non_stepping_actions_idempotent (s : PlaybackState) (a : PlaybackAction) :
  a <> STEP_FWD -> a <> STEP_BACK -> a <> TICK ->
  playbackReducer (playbackReducer s a) a = playbackReducer s a.
Proof.
  intros Hf Hb Ht.
  destruct a as [ | | | | | j | | t | name ]; try congruence;
    try reflexivity.
  (* PLAY is what is left: the others ignore what they did before *)
  destruct s as [[t|] i p]; [|reflexivity].
  unfold playbackReducer at 2. cbn [trace currentStepIndex].
  destruct (i >=? _) eqn:Hge.
  - unfold playbackReducer. cbn [trace currentStepIndex]. rewrite Hge.
    reflexivity.
  - unfold playbackReducer, totalSteps in *. cbn [trace currentStepIndex] in *.
    rewrite Hge. reflexivity.
Qed.

Lemma non_stepping_actions_idempotent_witness :
  JUMP 50 <> STEP_FWD /\ JUMP 50 <> STEP_BACK /\ JUMP 50 <> TICK
  /\ playbackReducer (playbackReducer (initialState (Some MOCK_TRACE)) (JUMP 50))
       (JUMP 50)
     = playbackReducer (initialState (Some MOCK_TRACE)) (JUMP 50).
Proof.
  assert (H1 : JUMP 50 <> STEP_FWD) by discriminate.
  assert (H2 : JUMP 50 <> STEP_BACK) by discriminate.
  assert (H3 : JUMP 50 <> TICK) by discriminate.
  split; [exact H1|]. split; [exact H2|]. split; [exact H3|].
  apply (non_stepping_actions_idempotent
           (initialState (Some MOCK_TRACE)) (JUMP 50) H1 H2 H3).
Defined.

(** X4: loading a trace forgets the past: what follows a [SET_TRACE t]
    runs as on an engine that started with [t], whatever came before. *)
Theorem set_trace_forgets_history (s : PlaybackState)
    (before after : list PlaybackAction) (t : option ExecutionTrace) :
  run s (before ++ SET_TRACE t :: after) = run (initialState t) after.
Proof.
  unfold run. rewrite fold_left_app. reflexivity.
Qed.

(** X5: on a state within bounds, [RESET] is [JUMP 0] and [STEP_BACK]
    is [JUMP] to the index before the current one. *)
Theorem reset_and_step_back_are_jumps (s : PlaybackState) :
  in_bounds s ->
  playbackReducer s RESET = playbackReducer s (JUMP 0)
  /\ playbackReducer s STEP_BACK
     = playbackReducer s (JUMP (currentStepIndex s - 1)).
Proof.
  intros Hb. apply in_bounds_total in Hb.
  pose proof (totalSteps_nonneg s) as Hn.
  cbn [playbackReducer]. split; f_equal; lia.
Qed.

Lemma reset_and_step_back_are_jumps_witness :
  in_bounds (run (initialState (Some MOCK_TRACE)) [JUMP 4])
  /\ (playbackReducer (run (initialState (Some MOCK_TRACE)) [JUMP 4]) RESET
      = playbackReducer (run (initialState (Some MOCK_TRACE)) [JUMP 4]) (JUMP 0)
      /\ playbackReducer (run (initialState (Some MOCK_TRACE)) [JUMP 4]) STEP_BACK
         = playbackReducer (run (initialState (Some MOCK_TRACE)) [JUMP 4])
             (JUMP (currentStepIndex (run (initialState (Some MOCK_TRACE)) [JUMP 4]) - 1))).
Proof.
  assert (Hb : in_bounds (run (initialState (Some MOCK_TRACE)) [JUMP 4]))
    by (cbn; lia).
  split.
  - exact Hb.
  - apply (reset_and_step_back_are_jumps
             (run (initialState (Some MOCK_TRACE)) [JUMP 4]) Hb).
Defined.

(* ================================================================= *)
(** ** Runs of ticks *)

Lemma run_cons (s : PlaybackState) (a : PlaybackAction)
    (actions : list PlaybackAction) :
  run s (a :: actions) = run (playbackReducer s a) actions.
Proof. reflexivity. Qed.

Lemma tick_fields (s : PlaybackState) :
  playbackReducer s TICK
  = {| trace := trace s;
       currentStepIndex :=
         Z.min (currentStepIndex s + 1)
               (Z.max (currentStepIndex s) (totalSteps s - 1));
       isPlaying := isPlaying s && (currentStepIndex s + 1 <? totalSteps s) |}.
Proof.
  cbn [playbackReducer]. case_geb.
  - destruct (Z.ltb_spec (currentStepIndex s + 1) (totalSteps s)); [lia|].
    rewrite andb_false_r. f_equal. lia.
  - destruct (Z.ltb_spec (currentStepIndex s + 1) (totalSteps s)); [|lia].
    rewrite andb_true_r. f_equal. lia.
Qed.

Lemma run_ticks (s : PlaybackState) (n : nat) :
  run s (repeat TICK (S n))
  = {| trace := trace s;
       currentStepIndex :=
         Z.min (currentStepIndex s + Z.of_nat (S n))
               (Z.max (currentStepIndex s) (totalSteps s - 1));
       isPlaying :=
         isPlaying s && (currentStepIndex s + Z.of_nat (S n) <? totalSteps s) |}.
Proof.
  revert s. induction n as [|n IH]; intros s.
  - cbn [repeat]. rewrite run_cons. cbn [run fold_left].
    apply tick_fields.
  - change (repeat TICK (S (S n))) with (TICK :: repeat TICK (S n)).
    rewrite run_cons, IH, tick_fields.
    unfold totalSteps; cbn [trace currentStepIndex isPlaying].
    fold (totalSteps s).
    set (i := currentStepIndex s). set (N := totalSteps s).
    rewrite (Nat2Z.inj_succ (S n)).
    set (k := Z.of_nat (S n)).
    assert (Hk : 0 < k) by (unfold k; lia).
    f_equal; [lia|].
    rewrite <- andb_assoc. f_equal.
    destruct (Z.ltb_spec (i + 1) N);
      destruct (Z.ltb_spec (Z.min (i + 1) (Z.max i (N - 1)) + k) N);
      destruct (Z.ltb_spec (i + Z.succ k) N); try reflexivity; lia.
Qed.

(** X6: one or more [TICK]s in a row move the position forward by their
    number, but never past the last step (and not at all from a
    position already at or beyond it); [isPlaying] survives them
    exactly when it was set and the last step has not been overrun. *)
Theorem ticks_advance_then_stop (s : PlaybackState) (n : nat) :
  run s (repeat TICK (S n))
  = {| trace := trace s;
       currentStepIndex :=
         Z.min (currentStepIndex s + Z.of_nat (S n))
               (Z.max (currentStepIndex s) (totalSteps s - 1));
       isPlaying :=
         isPlaying s && (currentStepIndex s + Z.of_nat (S n) <? totalSteps s) |}.
Proof. apply run_ticks. Qed.

Lemma play_fields (s : PlaybackState) :
  playbackReducer s PLAY
  = {| trace := trace s;
       currentStepIndex := currentStepIndex s;
       isPlaying := isPlaying (playbackReducer s PLAY) |}.
Proof.
  destruct s as [[t|] i p]; cbn [playbackReducer trace currentStepIndex];
    [destruct (_ >=? _)|]; reflexivity.
Qed.

(** X7: a full autoplay: from the initial state of any trace, [PLAY]
    followed by as many [TICK]s as the trace has steps ends on the last
    step with [isPlaying] false; with an empty or absent trace it ends
    where it started, at position 0 and paused. *)
Theorem autoplay_ends_paused_on_last_step (T : option ExecutionTrace) :
  run (initialState T)
      (PLAY :: repeat TICK (Z.to_nat (totalSteps (initialState T))))
  = {| trace := T;
       currentStepIndex := Z.max 0 (totalSteps (initialState T) - 1);
       isPlaying := false |}.
Proof.
  rewrite run_cons.
  set (s1 := playbackReducer (initialState T) PLAY).
  assert (Ht : trace s1 = T) by (unfold s1; rewrite play_fields; reflexivity).
  assert (Hi : currentStepIndex s1 = 0)
    by (unfold s1; rewrite play_fields; reflexivity).
  assert (HN : totalSteps s1 = totalSteps (initialState T))
    by (unfold totalSteps; rewrite Ht; reflexivity).
  pose proof (totalSteps_nonneg (initialState T)) as Hn.
  destruct (Z.to_nat (totalSteps (initialState T))) as [|n] eqn:HnN.
  - assert (H0 : totalSteps (initialState T) = 0) by lia.
    cbn [repeat run fold_left].
    unfold s1. destruct T as [t|]; [|reflexivity].
    cbn [playbackReducer initialState trace currentStepIndex isPlaying
         initialPlaybackState] in *.
    rewrite H0. reflexivity.
  - rewrite run_ticks, Ht, Hi, HN.
    assert (HS : Z.of_nat (S n) = totalSteps (initialState T)) by lia.
    rewrite HS. f_equal; [lia|].
    rewrite Z.ltb_irrefl. apply andb_false_r.
Qed.

(** X8: stepping forward and back again returns to the same step, except at
    the end, where the forward step does nothing and the state ends one
    step earlier; stepping back and forward again returns to the same
    step, except at the start of a trace with more than one step, where
    it ends on the second step.  Both leave the engine paused. *)
Theorem step_round_trips (s : PlaybackState) :
  in_bounds s ->
  run s [STEP_FWD; STEP_BACK]
  = {| trace := trace s;
       currentStepIndex :=
         if isAtEnd s then Z.max 0 (currentStepIndex s - 1)
         else currentStepIndex s;
       isPlaying := false |}
  /\ run s [STEP_BACK; STEP_FWD]
     = {| trace := trace s;
          currentStepIndex :=
            if isAtStart s && negb (isAtEnd s) then 1 else currentStepIndex s;
          isPlaying := false |}.
Proof.
  intros Hb. apply in_bounds_total in Hb.
  pose proof (totalSteps_nonneg s) as Hn.
  unfold run, isAtEnd, isAtStart. cbn [fold_left]. split.
  - cbn [playbackReducer]. case_geb; cbn [trace currentStepIndex].
    + destruct (Z.geb_spec (currentStepIndex s) (totalSteps s - 1)); [|lia].
      reflexivity.
    + destruct (Z.geb_spec (currentStepIndex s) (totalSteps s - 1)); [lia|].
      f_equal. lia.
  - unfold playbackReducer at 2. unfold playbackReducer.
    unfold totalSteps at 1. cbn [trace currentStepIndex isPlaying].
    fold (totalSteps s).
    destruct (Z.eqb_spec (currentStepIndex s) 0) as [H0 | H0];
      destruct (Z.geb_spec (currentStepIndex s) (totalSteps s - 1));
      case_geb; cbn [andb negb]; f_equal; lia.
Qed.

Lemma step_round_trips_witness :
  in_bounds (run (initialState (Some MOCK_TRACE)) [JUMP 4])
  /\ (run (run (initialState (Some MOCK_TRACE)) [JUMP 4]) [STEP_FWD; STEP_BACK]
      = {| trace := Some MOCK_TRACE; currentStepIndex := 4; isPlaying := false |}
      /\ run (run (initialState (Some MOCK_TRACE)) [JUMP 4]) [STEP_BACK; STEP_FWD]
         = {| trace := Some MOCK_TRACE; currentStepIndex := 4; isPlaying := false |}).
Proof.
  assert (Hb : in_bounds (run (initialState (Some MOCK_TRACE)) [JUMP 4]))
    by (cbn; lia).
  split.
  - exact Hb.
  - apply (step_round_trips (run (initialState (Some MOCK_TRACE)) [JUMP 4]) Hb).
Defined.

(* ================================================================= *)
(** ** The derived fields and the transport buttons *)

(** X9: in every state the engine can reach, a current step is missing
    exactly when there are no steps: the position always names a step
    of the loaded trace as soon as the trace has one. *)
Theorem currentStep_missing_iff_no_steps (T : option ExecutionTrace)
    (actions : list PlaybackAction) :
  currentStep (run (initialState T) actions) = None
  <-> totalSteps (run (initialState T) actions) = 0.
Proof.
  pose proof (reachable_in_bounds T _ (reachable_run T actions)) as Hb.
  revert Hb. generalize (run (initialState T) actions). intros [[t|] i p].
  - unfold in_bounds, currentStep, totalSteps; cbn [trace currentStepIndex].
    intros Hb. destruct (Z.ltb_spec i 0); [lia|].
    rewrite nth_error_None. lia.
  - unfold currentStep, totalSteps; cbn [trace]. tauto.
Qed.

(** X10: the flags that disable the transport buttons agree with the
    reducer.  On a state within bounds, [PLAY] turns [isPlaying] on
    exactly when [isAtEnd] is false, [STEP_FWD] moves one step on
    exactly when [isAtEnd] is false, and [STEP_BACK] and [RESET] move
    the position exactly when [isAtStart] is false. *)
Theorem disabled_buttons_would_not_move (s : PlaybackState) :
  in_bounds s ->
  isPlaying (playbackReducer s PLAY) = isPlaying s || negb (isAtEnd s)
  /\ currentStepIndex (playbackReducer s STEP_FWD)
     = (if isAtEnd s then currentStepIndex s else currentStepIndex s + 1)
  /\ currentStepIndex (playbackReducer s STEP_BACK)
     = (if isAtStart s then currentStepIndex s else currentStepIndex s - 1)
  /\ currentStepIndex (playbackReducer s RESET)
     = (if isAtStart s then currentStepIndex s else 0).
Proof.
  intros Hb. pose proof Hb as Hb'. apply in_bounds_total in Hb'.
  unfold isAtEnd, isAtStart. repeat split.
  - destruct s as [[t|] i p]; cbn [playbackReducer trace currentStepIndex isPlaying].
    + destruct (i >=? _); cbn [isPlaying negb];
        [rewrite orb_false_r | rewrite orb_true_r]; reflexivity.
    + unfold in_bounds in Hb; cbn in Hb. subst i. cbn.
      symmetry. apply orb_false_r.
  - cbn [playbackReducer].
    case_geb; destruct (Z.geb_spec (currentStepIndex s) (totalSteps s - 1));
      cbn [currentStepIndex]; lia.
  - cbn [playbackReducer currentStepIndex].
    destruct (Z.eqb_spec (currentStepIndex s) 0); lia.
  - cbn [playbackReducer currentStepIndex].
    destruct (Z.eqb_spec (currentStepIndex s) 0); lia.
Qed.

Lemma disabled_buttons_would_not_move_witness :
  in_bounds (initialState (Some MOCK_TRACE))
  /\ (isPlaying (playbackReducer (initialState (Some MOCK_TRACE)) PLAY) = true
      /\ currentStepIndex (playbackReducer (initialState (Some MOCK_TRACE)) STEP_FWD) = 1
      /\ currentStepIndex (playbackReducer (initialState (Some MOCK_TRACE)) STEP_BACK) = 0
      /\ currentStepIndex (playbackReducer (initialState (Some MOCK_TRACE)) RESET) = 0).
Proof.
  assert (Hb : in_bounds (initialState (Some MOCK_TRACE))) by (cbn; lia).
  split.
  - exact Hb.
  - apply (disabled_buttons_would_not_move (initialState (Some MOCK_TRACE)) Hb).
Defined.

(* ================================================================= *)
(** ** The step cards *)

Lemma stepCardsFrom_current (l : list AlgorithmStep) (i current : Z) :
  filter isCurrent (stepCardsFrom i l current)
  = match (if current <? i then None
           else nth_error l (Z.to_nat (current - i))) with
    | Some st => [{| step := st; isCurrent := true; index := current |}]
    | None => []
    end.
Proof.
  revert i. induction l as [|st rest IH]; intros i.
  - cbn. destruct (current <? i); [reflexivity|].
    rewrite nth_error_nil. reflexivity.
  - cbn [stepCardsFrom filter isCurrent]. rewrite IH.
    destruct (Z.eqb_spec i current) as [Heq | Hne].
    + subst i.
      destruct (Z.ltb_spec current (current + 1)); [|lia].
      destruct (Z.ltb_spec current current); [lia|].
      rewrite Z.sub_diag. reflexivity.
    + destruct (Z.ltb_spec current i).
      * destruct (Z.ltb_spec current (i + 1)); [reflexivity | lia].
      * destruct (Z.ltb_spec current (i + 1)); [lia|].
        replace (Z.to_nat (current - i)) with (S (Z.to_nat (current - (i + 1))))
          by lia.
        reflexivity.
Qed.

(** X11: the highlighted cards are the card of the current step and nothing
    else: in every state at most one card has [isCurrent], it sits at
    the current index and carries the step the inspector shows; when
    there is no current step no card is highlighted. *)
Theorem highlighted_card_is_current_step (s : PlaybackState) :
  filter isCurrent (stepCards s)
  = match currentStep s with
    | Some st =>
        [{| step := st; isCurrent := true; index := currentStepIndex s |}]
    | None => []
    end.
Proof.
  unfold stepCards, currentStep. destruct (trace s) as [t|]; [|reflexivity].
  rewrite stepCardsFrom_current, Z.sub_0_r. reflexivity.
Qed.

Lemma stepCardsFrom_In (l : list AlgorithmStep) (i current : Z)
    (c : StepCardProps) :
  In c (stepCardsFrom i l current) ->
  i <= index c < i + Z.of_nat (List.length l)
  /\ nth_error l (Z.to_nat (index c - i)) = Some (step c).
Proof.
  revert i. induction l as [|st rest IH]; intros i; cbn [stepCardsFrom In].
  - tauto.
  - intros [Hc | Hin].
    + subst c. cbn [index step List.length]. split; [lia|].
      rewrite Z.sub_diag. reflexivity.
    + destruct (IH _ Hin) as [Hr Hn]. cbn [List.length]. split; [lia|].
      replace (Z.to_nat (index c - i)) with (S (Z.to_nat (index c - (i + 1))))
        by lia.
      exact Hn.
Qed.

(** X12: clicking a card selects it: for every card on screen, the click
    puts the position on that card's index, makes that card's step the
    current step, pauses playback, and keeps the trace and the speed. *)
Theorem click_selects_card (engine : PlaybackEngine) (c : StepCardProps) :
  In c (stepCards (state engine)) ->
  currentStepIndex (state (clickCard c engine)) = index c
  /\ currentStep (state (clickCard c engine)) = Some (step c)
  /\ isPlaying (state (clickCard c engine)) = false
  /\ trace (state (clickCard c engine)) = trace (state engine)
  /\ speedRef (clickCard c engine) = speedRef engine.
Proof.
  unfold stepCards, clickCard, jumpTo, dispatch. cbn [state speedRef].
  destruct (state engine) as [[t|] i p]; cbn [trace currentStepIndex];
    [|intros []].
  intros Hin. apply stepCardsFrom_In in Hin. destruct Hin as [Hr Hn].
  rewrite Z.sub_0_r in Hn.
  assert (Hidx : Z.max 0 (Z.min (Z.of_nat (List.length (steps t)) - 1) (index c))
                 = index c) by lia.
  unfold currentStep, playbackReducer, totalSteps.
  cbn [trace currentStepIndex isPlaying]. rewrite Hidx.
  destruct (Z.ltb_spec (index c) 0); [lia|].
  repeat split; try reflexivity. exact Hn.
Qed.

Lemma click_selects_card_witness :
  In {| step := mkStep 1 compare
                  [("a", PNum 1); ("b", PNum 2);
                   ("label", PStr "Compare neighbors")]%string;
        isCurrent := false; index := 1 |}
     (stepCards (state (usePlaybackEngine (Some MOCK_TRACE))))
  /\ currentStepIndex
       (state (clickCard
                 {| step := mkStep 1 compare
                              [("a", PNum 1); ("b", PNum 2);
                               ("label", PStr "Compare neighbors")]%string;
                    isCurrent := false; index := 1 |}
                 (usePlaybackEngine (Some MOCK_TRACE)))) = 1.
Proof.
  assert (Hin : In {| step := mkStep 1 compare
                              [("a", PNum 1); ("b", PNum 2);
                               ("label", PStr "Compare neighbors")]%string;
                      isCurrent := false; index := 1 |}
                   (stepCards (state (usePlaybackEngine (Some MOCK_TRACE)))))
    by (cbn; right; left; reflexivity).
  split.
  - exact Hin.
  - apply (click_selects_card (usePlaybackEngine (Some MOCK_TRACE)) _ Hin).
Defined.

(* ================================================================= *)
(** ** The progress bar *)

Lemma progressPct_fraction (s : PlaybackState) (d : positive) :
  totalSteps s - 1 = Z.pos d ->
  (progressPct s == (currentStepIndex s * 100) # d)%Q.
Proof.
  intros Hd. unfold progressPct.
  destruct (Z.gtb_spec (totalSteps s) 1); [|lia].
  rewrite Hd. unfold Qeq, Qdiv, Qmult, Qinv, inject_Z. cbn. lia.
Qed.

(** X13: in every state the engine can reach the progress bar is between 0
    and 100 percent wide; it is full exactly on the last step of a
    trace with more than one step; and on a trace that has steps the
    counter reads a step number between 1 and the number of steps. *)
Theorem progress_within_percent (T : option ExecutionTrace)
    (actions : list PlaybackAction) :
  (0 <= progressPct (run (initialState T) actions) <= 100)%Q
  /\ ((progressPct (run (initialState T) actions) == 100)%Q
      <-> (1 < totalSteps (run (initialState T) actions)
           /\ currentStepIndex (run (initialState T) actions)
              = totalSteps (run (initialState T) actions) - 1))
  /\ (totalSteps (run (initialState T) actions) = 0
      \/ 1 <= fst (stepCounter (run (initialState T) actions))
           <= snd (stepCounter (run (initialState T) actions))).
Proof.
  pose proof (reachable_in_bounds T _ (reachable_run T actions)) as Hb.
  revert Hb. generalize (run (initialState T) actions). intros s Hb.
  apply in_bounds_total in Hb.
  pose proof (totalSteps_nonneg s) as Hn.
  split; [|split].
  - destruct (Z.gtb_spec (totalSteps s) 1) as [Hgt | Hle].
    + destruct (totalSteps s - 1) as [|d|d] eqn:Hd; try lia.
      rewrite (progressPct_fraction s d Hd).
      unfold Qle. cbn. lia.
    + unfold progressPct.
      destruct (Z.gtb_spec (totalSteps s) 1); [lia|]. split; discriminate.
  - destruct (Z.gtb_spec (totalSteps s) 1) as [Hgt | Hle].
    + destruct (totalSteps s - 1) as [|d|d] eqn:Hd; try lia.
      rewrite (progressPct_fraction s d Hd).
      unfold Qeq. cbn. lia.
    + unfold progressPct.
      destruct (Z.gtb_spec (totalSteps s) 1); [lia|].
      split; [discriminate | lia].
  - unfold stepCounter. cbn [fst snd]. lia.
Qed.

(* ================================================================= *)
(** ** Speed and playback side by side *)

Lemma call_state (engine : PlaybackEngine) (c : EngineCall) :
  state (call engine c)
  = match c with
    | Dispatch a => playbackReducer (state engine) a
    | SetSpeed _ => state engine
    end.
Proof. destruct c; reflexivity. Qed.

Lemma runEngine_state (engine : PlaybackEngine) (calls : list EngineCall) :
  state (runEngine engine calls) = run (state engine) (dispatched calls).
Proof.
  revert engine. induction calls as [|c calls IH]; intros engine.
  - reflexivity.
  - change (runEngine engine (c :: calls))
      with (runEngine (call engine c) calls).
    rewrite IH, call_state. destruct c; reflexivity.
Qed.

(** X14: speed changes are invisible to playback and commands are invisible
    to the speed: after any mix of calls the playback state is what the
    dispatched actions alone produce, and a run of commands without a
    speed change leaves the speed as it was. *)
Theorem speed_and_playback_independent (engine : PlaybackEngine)
    (calls : list EngineCall) (actions : list PlaybackAction) :
  state (runEngine engine calls) = run (state engine) (dispatched calls)
  /\ speedRef (runEngine engine (map Dispatch actions)) = speedRef engine.
Proof.
  split.
  - apply runEngine_state.
  - revert engine. induction actions as [|a actions IH]; intros engine.
    + reflexivity.
    + change (runEngine engine (map Dispatch (a :: actions)))
        with (runEngine (dispatch engine a) (map Dispatch actions)).
      rewrite IH. reflexivity.
Qed.

Section SpeedRange.

Local Open Scope Q_scope.

Lemma call_speed_in_range (engine : PlaybackEngine) (c : EngineCall) :
  speed_in_range engine -> speed_in_range (call engine c).
Proof.
  unfold speed_in_range. destruct c as [a | spd]; cbn [call dispatch setSpeed speedRef].
  - tauto.
  - intros _. split.
    + apply Q.le_max_l.
    + apply Q.max_lub; [discriminate | apply Q.le_min_l].
Qed.

Lemma runEngine_speed_in_range (engine : PlaybackEngine)
    (calls : list EngineCall) :
  speed_in_range engine -> speed_in_range (runEngine engine calls).
Proof.
  revert engine. induction calls as [|c calls IH]; intros engine He.
  - exact He.
  - apply (IH (call engine c)). apply call_speed_in_range. exact He.
Qed.

Lemma delay_in_range (spd : Q) :
  1 # 10 <= spd <= 5 -> (200 <= speedToDelay spd <= 10000)%Z.
Proof.
  intros [Hlo Hhi].
  assert (Hpos : 0 < spd)
    by (apply Qlt_le_trans with (1 # 10); [reflexivity | exact Hlo]).
  split.
  - change 200%Z with (speedToDelay 5).
    apply speedToDelay_antitone; assumption.
  - change 10000%Z with (speedToDelay (1 # 10)).
    apply speedToDelay_antitone; [reflexivity | exact Hlo].
Qed.

(** X15: whatever calls are made on a fresh engine, speed changes included,
    the stored speed stays within [0.1 .. 5], so the delay computed
    from it is always between 200 and 10000 ms: the division never
    meets a zero or negative speed. *)
Theorem speed_stays_in_range (T : option ExecutionTrace)
    (calls : list EngineCall) :
  1 # 10 <= speedRef (runEngine (usePlaybackEngine T) calls) <= 5
  /\ (200 <= speedToDelay (speedRef (runEngine (usePlaybackEngine T) calls))
      <= 10000)%Z.
Proof.
  assert (H : speed_in_range (runEngine (usePlaybackEngine T) calls)).
  { apply runEngine_speed_in_range. split; discriminate. }
  split; [exact H | apply delay_in_range; exact H].
Qed.

End SpeedRange.

(* ================================================================= *)
(** ** The interval *)

Lemma cleanup_clears (h : PlaybackEngine * TimerDriver) :
  driver_matches h -> scheduled (timers (intervalCleanup (snd h))) = [].
Proof.
  unfold driver_matches, intervalCleanup. destruct h as [e d]. cbn [fst snd].
  destruct (isPlaying (state e)).
  - intros (n & delay & Href & Hs & _). rewrite Href.
    cbn [timers clearInterval scheduled]. rewrite Hs. cbn.
    rewrite Nat.eqb_refl. reflexivity.
  - intros Hs. cbn [timers]. destruct (intervalRef d) as [n|]; cbn.
    + rewrite Hs. reflexivity.
    + exact Hs.
Qed.

Lemma effect_matches (e : PlaybackEngine) (d : TimerDriver) :
  speed_in_range e ->
  scheduled (timers d) = [] ->
  driver_matches (e, intervalEffect e d).
Proof.
  intros He Hs. unfold driver_matches, intervalEffect. cbn [fst snd].
  destruct (isPlaying (state e)).
  - cbn. exists (nextHandle (timers d)), (speedToDelay (speedRef e)).
    rewrite Hs. repeat split; apply delay_in_range; exact He.
  - cbn [timers]. destruct (intervalRef d) as [n|]; cbn.
    + rewrite Hs. reflexivity.
    + exact Hs.
Qed.

Lemma commitBatch_matches (h : PlaybackEngine * TimerDriver)
    (batch : list EngineCall) :
  speed_in_range (fst h) -> driver_matches h ->
  speed_in_range (fst (commitBatch h batch))
  /\ driver_matches (commitBatch h batch).
Proof.
  intros He Hd. split.
  - apply runEngine_speed_in_range. exact He.
  - unfold commitBatch, commitRender.
    destruct (Bool.eqb (isPlaying (state (fst h)))
                       (isPlaying (state (runEngine (fst h) batch)))) eqn:Hsame.
    + apply eqb_prop in Hsame.
      unfold driver_matches in *. cbn [fst snd]. rewrite <- Hsame. exact Hd.
    + apply effect_matches.
      * apply runEngine_speed_in_range. exact He.
      * apply cleanup_clears. exact Hd.
Qed.

Lemma runHook_matches (h : PlaybackEngine * TimerDriver)
    (batches : list (list EngineCall)) :
  speed_in_range (fst h) -> driver_matches h ->
  speed_in_range (fst (runHook h batches)) /\ driver_matches (runHook h batches).
Proof.
  revert h. induction batches as [|batch batches IH]; intros h He Hd.
  - split; assumption.
  - destruct (commitBatch_matches h batch He Hd) as [He' Hd'].
    apply (IH (commitBatch h batch) He' Hd').
Qed.

Lemma mountHook_matches (T : option ExecutionTrace) :
  speed_in_range (fst (mountHook T)) /\ driver_matches (mountHook T).
Proof.
  split.
  - split; discriminate.
  - reflexivity.
Qed.

Lemma runHook_engine (h : PlaybackEngine * TimerDriver)
    (batches : list (list EngineCall)) :
  fst (runHook h batches) = runEngine (fst h) (List.concat batches).
Proof.
  revert h. induction batches as [|batch batches IH]; intros h.
  - reflexivity.
  - change (runHook h (batch :: batches))
      with (runHook (commitBatch h batch) batches).
    rewrite IH. unfold commitBatch. cbn [fst List.concat].
    unfold runEngine. rewrite fold_left_app. reflexivity.
Qed.

(** X16: the interval follows [isPlaying].  After any ticks of calls on
    a mounted hook, however the calls are batched, no interval is
    scheduled while paused, and while playing exactly one is, the one
    [intervalRef] holds, with a delay between 200 and 10000 ms;
    intervals never pile up.  Unmounting leaves none behind. *)
Theorem interval_follows_isPlaying (T : option ExecutionTrace)
    (calls : list (list EngineCall)) :
  ((isPlaying (state (fst (runHook (mountHook T) calls))) = false
    /\ scheduled (timers (snd (runHook (mountHook T) calls))) = [])
   \/ (isPlaying (state (fst (runHook (mountHook T) calls))) = true
       /\ exists n delay,
            intervalRef (snd (runHook (mountHook T) calls)) = Some n
            /\ scheduled (timers (snd (runHook (mountHook T) calls)))
               = [(n, delay)]
            /\ 200 <= delay <= 10000))
  /\ scheduled (timers (unmountDriver (snd (runHook (mountHook T) calls)))) = [].
Proof.
  destruct (mountHook_matches T) as [He Hd].
  destruct (runHook_matches _ calls He Hd) as [_ Hm].
  split.
  - unfold driver_matches in Hm.
    destruct (isPlaying (state (fst (runHook (mountHook T) calls)))).
    + right. split; [reflexivity | exact Hm].
    + left. split; [reflexivity | exact Hm].
  - apply cleanup_clears. exact Hm.
Qed.

Lemma play_after_pause_starts (s : PlaybackState) :
  in_bounds s -> isAtEnd s = false ->
  isPlaying (playbackReducer (playbackReducer s PAUSE) PLAY) = true.
Proof.
  destruct s as [[t|] i p]; unfold in_bounds, isAtEnd, totalSteps;
    cbn [trace currentStepIndex]; intros Hb He.
  - cbn [playbackReducer trace currentStepIndex]. unfold totalSteps.
    cbn [trace]. rewrite He. reflexivity.
  - subst i. discriminate He.
Qed.

(** X17: a speed change does not touch the timers, and neither does a
    tick in which playback is paused and started again: [isPlaying] is
    the same at the next render, the effect does not run, and the
    interval that is running keeps the delay it was created with.  The
    new speed sets the delay only of an interval created by a later
    start: when the pause is rendered in one tick and the play in a
    later one, the interval has the delay of the new, clamped speed.
    Here the hook has been through any ticks, is playing and is not at
    the end. *)
Theorem new_speed_waits_for_next_start (T : option ExecutionTrace)
    (calls : list (list EngineCall)) (spd : Q) :
  isPlaying (state (fst (runHook (mountHook T) calls))) = true ->
  isAtEnd (state (fst (runHook (mountHook T) calls))) = false ->
  snd (commitBatch (runHook (mountHook T) calls) [SetSpeed spd])
  = snd (runHook (mountHook T) calls)
  /\ snd (commitBatch (runHook (mountHook T) calls)
                      [SetSpeed spd; Dispatch PAUSE; Dispatch PLAY])
     = snd (runHook (mountHook T) calls)
  /\ exists n,
       scheduled (timers (snd (runHook (runHook (mountHook T) calls)
                                  [[SetSpeed spd]; [Dispatch PAUSE];
                                   [Dispatch PLAY]])))
       = [(n, speedToDelay (Qmax (1 # 10) (Qmin 5 spd)))].
Proof.
  intros Hplaying Hend.
  destruct (mountHook_matches T) as [He0 Hd0].
  destruct (runHook_matches _ calls He0 Hd0) as [He Hd].
  assert (Hb : in_bounds (state (fst (runHook (mountHook T) calls)))).
  { rewrite runHook_engine, runEngine_state.
    apply (reachable_in_bounds T). apply reachable_run. }
  destruct (runHook_matches _ [[SetSpeed spd]; [Dispatch PAUSE]] He Hd)
    as [_ Hd2].
  revert Hplaying Hend Hb Hd2.
  generalize (runHook (mountHook T) calls).
  intros [e d] Hplaying Hend Hb Hd2.
  cbn [fst snd] in Hplaying, Hend, Hb.
  pose proof (play_after_pause_starts (state e) Hb Hend) as Hplay.
  split; [|split].
  - unfold commitBatch, commitRender.
    cbn [fst snd runEngine fold_left call setSpeed state].
    rewrite eqb_reflx. reflexivity.
  - unfold commitBatch, commitRender.
    cbn [fst snd runEngine fold_left call setSpeed dispatch state].
    rewrite Hplaying, Hplay. reflexivity.
  - pose proof (cleanup_clears _ Hd2) as Hclean.
    cbn [runHook fold_left commitBatch runEngine fst snd call] in Hclean |- *.
    set (e1 := setSpeed spd e) in *.
    set (d1 := commitRender e e1 d) in *.
    set (e2 := dispatch e1 PAUSE) in *.
    set (d2 := commitRender e1 e2 d1) in *.
    set (e3 := dispatch e2 PLAY).
    assert (H3 : isPlaying (state e3) = true) by exact Hplay.
    unfold commitRender at 1.
    change (isPlaying (state e2)) with false. rewrite H3. cbn [Bool.eqb].
    unfold intervalEffect. rewrite H3. cbn [setInterval timers scheduled].
    rewrite Hclean.
    exists (nextHandle (timers (intervalCleanup d2))). reflexivity.
Qed.

Lemma new_speed_waits_for_next_start_witness :
  isPlaying (state (fst (runHook (mountHook (Some MOCK_TRACE))
                                 [[Dispatch PLAY]; [Dispatch TICK]]))) = true
  /\ isAtEnd (state (fst (runHook (mountHook (Some MOCK_TRACE))
                                  [[Dispatch PLAY]; [Dispatch TICK]]))) = false
  /\ (snd (commitBatch (runHook (mountHook (Some MOCK_TRACE))
                                [[Dispatch PLAY]; [Dispatch TICK]])
                       [SetSpeed 2])
      = snd (runHook (mountHook (Some MOCK_TRACE))
                     [[Dispatch PLAY]; [Dispatch TICK]])
      /\ snd (commitBatch (runHook (mountHook (Some MOCK_TRACE))
                                   [[Dispatch PLAY]; [Dispatch TICK]])
                          [SetSpeed 2; Dispatch PAUSE; Dispatch PLAY])
         = snd (runHook (mountHook (Some MOCK_TRACE))
                        [[Dispatch PLAY]; [Dispatch TICK]])
      /\ exists n,
           scheduled
             (timers (snd (runHook
                             (runHook (mountHook (Some MOCK_TRACE))
                                      [[Dispatch PLAY]; [Dispatch TICK]])
                             [[SetSpeed 2]; [Dispatch PAUSE]; [Dispatch PLAY]])))
           = [(n, speedToDelay (Qmax (1 # 10) (Qmin 5 2)))]).
Proof.
  split; [reflexivity|]. split; [reflexivity|].
  apply (new_speed_waits_for_next_start (Some MOCK_TRACE)
           [[Dispatch PLAY]; [Dispatch TICK]] 2);
    reflexivity.
Defined.
